(** * stan::math::inv_chi_square_cdf

    A shallow embedding of
    [src/stan/math/prim/scal/prob/inv_chi_square_cdf.hpp]: the cumulative
    distribution function of the inverse chi-square distribution together
    with the assembly of its partial derivatives.

    A C++ [double] is a primitive binary64 [float]; arithmetic and
    comparisons are the IEEE 754 ones.  The special functions the header
    calls ([exp], [pow], [tgamma], [digamma], [gamma_q],
    [grad_reg_inc_gamma]) live in other headers and are an interface
    ([SpecialFunctions]) every statement is generic in. *)

From Stdlib Require Import Floats List Bool ZArith PArith Arith Lia.
Import ListNotations.

Local Open Scope float_scope.

(** * Data model *)

(** A template argument [T_y] or [T_dof] is a single number or a container
    of numbers. *)
Inductive Argument : Type :=
| Scalar (x : float)
| Seq (xs : list float).

(** The numbers an argument holds, in order. *)
Definition elems (a : Argument) : list float :=
  match a with
  | Scalar x => [x]
  | Seq xs => xs
  end.

(** An operand of the call: its values ([value_of]) and whether its type is
    differentiable, the negation of [is_constant_struct<T>::value]. *)
Record Operand : Type := mkOperand {
  differentiable : bool;
  value_of : Argument
}.

(** The two exceptions of the header's contract: [std::domain_error] and
    [std::invalid_argument]. *)
Inductive error : Type :=
| domain_error
| invalid_argument.

(** What the caller gets: the probability and, for each differentiable
    operand only, one partial derivative per element of that operand. *)
Record result : Type := mkResult {
  value : float;
  grad_y : option (list float);
  grad_nu : option (list float)
}.

(** The partials buffers of [operands_and_partials]: [edge1_.partials_] for
    [y] and [edge2_.partials_] for [nu]. *)
Record operands_and_partials : Type := mkOps {
  edge1_ : list float;
  edge2_ : list float
}.

(** The interface of the special functions of the other headers. *)
Class SpecialFunctions : Type := {
  exp : float -> float;
  pow : float -> float -> float;
  tgamma : float -> float;
  digamma : float -> float;
  gamma_q : float -> float -> float;
  grad_reg_inc_gamma : float -> float -> float -> float -> float
}.

(** ** The error monad of the checks *)

Definition bind {A B : Type} (c : error + A) (k : A -> error + B) : error + B :=
  match c with
  | inl e => inl e
  | inr a => k a
  end.

Notation "c ;; k" := (bind c (fun _ => k))
  (at level 61, right associativity).

(** ** Helpers of the other headers *)

(** Modelled from the spec: [stan::length] of [meta/length.hpp], the number
    of elements of an argument, 1 for a single number. *)
Definition length (a : Argument) : nat := List.length (elems a).

(** Modelled from the spec: [size_zero] of [fun/size_zero.hpp], "either
    argument is an empty sequence (length 0)". *)
Definition size_zero (y nu : Argument) : bool :=
  (length y =? 0)%nat || (length nu =? 0)%nat.

(** Modelled from the spec: [max_size], the broadcast length "N = max of
    the two input lengths". *)
Definition max_size (y nu : Argument) : nat := Nat.max (length y) (length nu).

(** Modelled from the spec: the element of an argument a broadcast position
    maps to, "direct indexing when the sequence length matches N and
    index-0 replication when the sequence length is 1". *)
Definition slot (a : Argument) (n : nat) : nat :=
  if (length a =? 1)%nat then 0%nat else n.

(** Modelled from the spec: [scalar_seq_view<T>::operator[]] of
    [meta/scalar_seq_view.hpp].  An index past the end is undefined in C++
    and reads NaN here; validated inputs never reach it. *)
Definition seq_view (a : Argument) (n : nat) : float :=
  nth (slot a n) (elems a) nan.

(** Modelled from the spec: [VectorBuilder<used, T, T_dof>::operator[]] of
    [meta/VectorBuilder.hpp], a cache with one entry per element of the
    argument it was sized from. *)
Definition cache_at (a : Argument) (cache : list float) (n : nat) : float :=
  nth (slot a n) cache nan.

(** [l[i] += v].  An index past the end leaves the buffer as it is. *)
Fixpoint add_at (i : nat) (v : float) (l : list float) : list float :=
  match l, i with
  | [], _ => []
  | g :: l', O => (g + v) :: l'
  | g :: l', S i' => g :: add_at i' v l'
  end.

(** Modelled from the spec: [partials_[n] += v] on an edge of
    [operands_and_partials]: "positions sharing the same underlying element
    accumulate into the same slot". *)
Definition accumulate (a : Argument) (n : nat) (v : float)
    (partials : list float) : list float :=
  add_at (slot a n) v partials.

(** Modelled from the spec: the constructor of [operands_and_partials], a
    zeroed buffer "of length = that argument's own length" for a
    differentiable operand and none otherwise. *)
Definition new_partials (o : Operand) : list float :=
  if differentiable o then repeat 0 (length (value_of o)) else [].

Definition new_operands_and_partials (y nu : Operand) : operands_and_partials :=
  {| edge1_ := new_partials y; edge2_ := new_partials nu |}.

(** Modelled from the spec: [operands_and_partials::build], the value with
    the gradient of each differentiable operand; the gradient of a constant
    operand is absent. *)
Definition build (y nu : Operand) (ops : operands_and_partials) (v : float)
    : result :=
  {| value := v;
     grad_y := if differentiable y then Some (edge1_ ops) else None;
     grad_nu := if differentiable nu then Some (edge2_ ops) else None |}.

(** [return 1.0;]: a plain number converted to the return type carries no
    gradient. *)
Definition constant (v : float) : result :=
  {| value := v; grad_y := None; grad_nu := None |}.

(** Modelled from the spec: [check_positive_finite] of
    [err/check_positive_finite.hpp], "nu must be finite and strictly
    positive for every element (violation: domain error)". *)
Definition positive_finite (x : float) : bool := (0 <? x) && is_finite x.

Definition check_positive_finite (a : Argument) : error + unit :=
  if forallb positive_finite (elems a) then inr tt else inl domain_error.

(** Modelled from the spec: [check_not_nan] of [err/check_not_nan.hpp],
    "y must be not-NaN ... for every element (violation: domain error)". *)
Definition check_not_nan (a : Argument) : error + unit :=
  if forallb (fun x => negb (is_nan x)) (elems a) then inr tt
  else inl domain_error.

(** Modelled from the spec: [check_nonnegative] of
    [err/check_nonnegative.hpp], "y must be ... non-negative for every
    element (violation: domain error)". *)
Definition check_nonnegative (a : Argument) : error + unit :=
  if forallb (fun x => 0 <=? x) (elems a) then inr tt else inl domain_error.

(** Modelled from the spec: [check_consistent_sizes] of
    [err/check_consistent_sizes.hpp], "fails with a size-mismatch error if
    neither length equals N nor 1". *)
Definition consistent_size (a : Argument) (N : nat) : bool :=
  (length a =? N)%nat || (length a =? 1)%nat.

Definition check_consistent_sizes (y nu : Argument) : error + unit :=
  if consistent_size y (max_size y nu) && consistent_size nu (max_size y nu)
  then inr tt else inl invalid_argument.

(** * The function *)

Section InvChiSquareCdf.

Context {SF : SpecialFunctions}.

(** The state the main loop threads: the running product [P] and the
    partials buffers. *)
Record loop_state : Type := mkState {
  P : float;
  ops_partials : operands_and_partials
}.

(** Lines 75-77: [for (i = 0; i < length(y); i++) if (y_vec[i] == 0)]. *)
Definition zero_variate (y : Argument) : bool :=
  existsb (fun i => seq_view y i =? 0) (seq 0 (length y)).

(** Lines 82-93: [gamma_vec] and [digamma_vec], filled when [nu] is
    differentiable and without storage otherwise. *)
Definition gamma_vec (nu : Operand) : list float :=
  if differentiable nu
  then map (fun i => tgamma (0.5 * seq_view (value_of nu) i))
           (seq 0 (length (value_of nu)))
  else [].

Definition digamma_vec (nu : Operand) : list float :=
  if differentiable nu
  then map (fun i => digamma (0.5 * seq_view (value_of nu) i))
           (seq 0 (length (value_of nu)))
  else [].

(** Lines 95-121: one iteration of the main loop at broadcast position
    [n]. *)
Definition loop_body (y nu : Operand) (gammas digammas : list float)
    (st : loop_state) (n : nat) : loop_state :=
  if seq_view (value_of y) n =? infinity then st
  else
    let y_dbl := seq_view (value_of y) n in
    let y_inv_dbl := 1 / y_dbl in
    let nu_dbl := seq_view (value_of nu) n in
    let Pn := gamma_q (0.5 * nu_dbl) (0.5 * y_inv_dbl) in
    let edge1 :=
      if differentiable y
      then accumulate (value_of y) n
             (0.5 * y_inv_dbl * y_inv_dbl * exp (-0.5 * y_inv_dbl)
              * pow (0.5 * y_inv_dbl) (0.5 * nu_dbl - 1)
              / tgamma (0.5 * nu_dbl) / Pn)
             (edge1_ (ops_partials st))
      else edge1_ (ops_partials st) in
    let edge2 :=
      if differentiable nu
      then accumulate (value_of nu) n
             (0.5
              * grad_reg_inc_gamma (0.5 * nu_dbl) (0.5 * y_inv_dbl)
                  (cache_at (value_of nu) gammas n)
                  (cache_at (value_of nu) digammas n)
              / Pn)
             (edge2_ (ops_partials st))
      else edge2_ (ops_partials st) in
    {| P := P st * Pn;
       ops_partials := {| edge1_ := edge1; edge2_ := edge2 |} |}.

(** Lines 123-130: [partials_[n] *= P] over the whole buffer of each
    differentiable operand. *)
Definition scale_partials (y nu : Operand) (st : loop_state)
    : operands_and_partials :=
  {| edge1_ := if differentiable y
               then map (fun g => g * P st) (edge1_ (ops_partials st))
               else edge1_ (ops_partials st);
     edge2_ := if differentiable nu
               then map (fun g => g * P st) (edge2_ (ops_partials st))
               else edge2_ (ops_partials st) |}.

(** Lines 95-121: the main loop over [n = 0 .. N-1]. *)
Definition main_loop (y nu : Operand) (st : loop_state) : loop_state :=
  fold_left (loop_body y nu (gamma_vec nu) (digamma_vec nu))
            (seq 0 (max_size (value_of y) (value_of nu))) st.

Definition inv_chi_square_cdf (y nu : Operand) : error + result :=
  if size_zero (value_of y) (value_of nu) then inr (constant 1)
  else
    check_positive_finite (value_of nu) ;;
    check_not_nan (value_of y) ;;
    check_nonnegative (value_of y) ;;
    check_consistent_sizes (value_of y) (value_of nu) ;;
    let ops := new_operands_and_partials y nu in
    if zero_variate (value_of y) then inr (build y nu ops 0)
    else
      let st := main_loop y nu {| P := 1; ops_partials := ops |} in
      inr (build y nu (scale_partials y nu st) (P st)).

End InvChiSquareCdf.

(** A sample instance of the special functions, to run the function on
    concrete inputs: every value it returns is a small binary fraction, so
    a run can be followed by hand.  The theorems below hold for all
    instances. *)
Definition sample_functions : SpecialFunctions :=
  {| exp := fun _ => 1;
     pow := fun _ _ => 1;
     tgamma := fun _ => 1;
     digamma := fun _ => 1;
     gamma_q := fun _ _ => 0.5;
     grad_reg_inc_gamma := fun _ x _ _ => x |}.

(** ** The vocabulary of the specification *)

(** A valid input: "every nu element positive and finite, every y element
    non-negative and non-NaN, lengths broadcast-compatible". *)
Definition nonnegative_not_nan (x : float) : bool :=
  negb (is_nan x) && (0 <=? x).

(** Broadcast-compatible lengths: each length is the broadcast length [N]
    or 1. *)
Definition broadcast_compatible (y nu : Argument) : bool :=
  consistent_size y (max_size y nu) && consistent_size nu (max_size y nu).

Definition valid_input (y nu : Argument) : bool :=
  forallb positive_finite (elems nu)
  && forallb nonnegative_not_nan (elems y)
  && broadcast_compatible y nu.

(** "Some element of y equals exactly 0". *)
Definition has_zero (y : Argument) : bool :=
  existsb (fun x => x =? 0) (elems y).

(** "nu contains a non-positive or non-finite element". *)
Definition has_nonpositive_or_nonfinite (nu : Argument) : bool :=
  existsb (fun x => negb (0 <? x) || negb (is_finite x)) (elems nu).

(** "y contains a NaN or negative element". *)
Definition has_nan_or_negative (y : Argument) : bool :=
  existsb (fun x => is_nan x || (x <? 0)) (elems y).

(** What a caller who asks for the gradients of fewer operands keeps of a
    result: the value, and the gradients still asked for. *)
Definition requested (dy dnu : bool) (r : result) : result :=
  {| value := value r;
     grad_y := if dy then grad_y r else None;
     grad_nu := if dnu then grad_nu r else None |}.

Definition map_result (f : result -> result) (c : error + result)
    : error + result :=
  match c with
  | inl e => inl e
  | inr r => inr (f r)
  end.

(** The broadcast positions the main loop does not skip: "n in [0, N) with
    y(n) not equal to +infinity". *)
Definition finite_at (y : Argument) (n : nat) : bool :=
  negb (seq_view y n =? infinity).

Definition finite_positions (y nu : Argument) : list nat :=
  filter (finite_at y) (seq 0 (max_size y nu)).

Section Terms.

Context {SF : SpecialFunctions}.

(** The factor of position [n]: [Pn = Q(nu(n)/2, (1/y(n))/2)], a half
    being taken as the code takes it, by multiplying by 0.5. *)
Definition Q_term (y nu : Argument) (n : nat) : float :=
  gamma_q (0.5 * seq_view nu n) (0.5 * (1 / seq_view y n)).

(** The quantity position [n] adds to its y slot:
    [0.5 * y_inv^2 * exp(-0.5*y_inv) * (0.5*y_inv)^(nu(n)/2 - 1)
     / Gamma(nu(n)/2) / Pn]. *)
Definition y_term (y nu : Argument) (n : nat) : float :=
  let y_inv := 1 / seq_view y n in
  0.5 * y_inv * y_inv * exp (-0.5 * y_inv)
  * pow (0.5 * y_inv) (0.5 * seq_view nu n - 1)
  / tgamma (0.5 * seq_view nu n) / Q_term y nu n.

(** The quantity position [n] adds to its nu slot:
    [0.5 * grad_Q(nu(n)/2, (1/y(n))/2, Gamma(nu(n)/2), psi(nu(n)/2)) / Pn]. *)
Definition nu_term (y nu : Argument) (n : nat) : float :=
  0.5
  * grad_reg_inc_gamma (0.5 * seq_view nu n) (0.5 * (1 / seq_view y n))
      (tgamma (0.5 * seq_view nu n)) (digamma (0.5 * seq_view nu n))
  / Q_term y nu n.

(** A product and a sum over a list of positions, taken in order from 1.0
    and from 0.0. *)
Definition product_over (f : nat -> float) (ns : list nat) : float :=
  fold_left (fun p n => p * f n) ns 1.

Definition sum_over (f : nat -> float) (ns : list nat) : float :=
  fold_left (fun s n => s + f n) ns 0.

(** "The product over all broadcast positions n in [0, N) with y(n) not
    equal to +infinity of Q(nu(n)/2, (1/y(n))/2)". *)
Definition cdf_product (y nu : Argument) : float :=
  product_over (Q_term y nu) (finite_positions y nu).

(** The positions that share slot [i] of argument [a]. *)
Definition positions_of_slot (a y nu : Argument) (i : nat) : list nat :=
  filter (fun n => (slot a n =? i)%nat) (finite_positions y nu).

(** The gradient of an argument as the specification describes it: slot [i]
    is the sum of what the positions of that slot accumulate, times the
    product. *)
Definition expected_gradient (t : Argument -> Argument -> nat -> float)
    (a y nu : Argument) : list float :=
  map (fun i => sum_over (t y nu) (positions_of_slot a y nu i)
                * cdf_product y nu)
      (seq 0 (length a)).

(** The factor of one variate [y] under the scalar degrees of freedom
    [v]. *)
Definition factor (v y : float) : float :=
  gamma_q (0.5 * v) (0.5 * (1 / y)).

End Terms.

(** * Facts on binary64 arithmetic *)

Module Double.

(** Shifting a mantissa that was multiplied by [2^52] right by 52 bits
    loses nothing. *)
Lemma iter_shr_52 (m : positive) :
  SpecFloat.iter_pos shr_1 52
    (Build_shr_record (Zpos (4503599627370496 * m)) false false)
  = Build_shr_record (Zpos m) false false.
Proof. reflexivity. Qed.

Lemma digits2_shift_52 (m : positive) :
  Zpos (digits2_pos (4503599627370496 * m)) = (Zpos (digits2_pos m) + 52)%Z.
Proof. cbn [Pos.mul digits2_pos]. lia. Qed.

Lemma SFmul_1_l (x : spec_float) :
  valid_binary x = true -> SF64mul (Prim2SF 1) x = x.
Proof.
  change (Prim2SF 1) with (S754_finite false 4503599627370496 (-52)).
  destruct x as [s|s| |s m e]; try reflexivity.
  cbn [valid_binary]. unfold bounded, canonical_mantissa.
  intros H. apply andb_prop in H as [Hc He].
  apply Z.eqb_eq in Hc.
  unfold SF64mul, SFmul, binary_round_aux.
  unfold shr_fexp at 1. cbn [Zdigits2 shr_record_of_loc].
  rewrite digits2_shift_52.
  replace (Z.pos (digits2_pos m) + 52 + (-52 + e))%Z
    with (Z.pos (digits2_pos m) + e)%Z by lia.
  rewrite Hc.
  replace (e - (-52 + e))%Z with 52%Z by lia.
  unfold shr. rewrite iter_shr_52.
  cbn [shr_m loc_of_shr_record round_nearest_even].
  unfold shr_fexp. cbn [Zdigits2 shr_record_of_loc].
  replace (-52 + e + 52)%Z with e by lia.
  rewrite Hc, Z.sub_diag. cbn [shr shr_m]. rewrite He. reflexivity.
Qed.

(** [1.0 * x] is [x] for every double, the special values included. *)
Lemma mul_1_l (x : float) : 1 * x = x.
Proof.
  apply Prim2SF_inj. rewrite mul_spec. apply SFmul_1_l, Prim2SF_valid.
Qed.

(** A double that is not NaN has a specification that is not NaN. *)
Lemma is_nan_false (x : float) :
  is_nan x = false -> Prim2SF x <> S754_nan.
Proof.
  unfold is_nan. rewrite FloatAxioms.eqb_spec. intros H E. rewrite E in H.
  discriminate.
Qed.

(** On doubles that are not NaN, [0 <= x] fails exactly when [x < 0]. *)
Lemma leb_0_ltb (x : float) :
  is_nan x = false -> (0 <=? x) = negb (x <? 0).
Proof.
  intros H. apply is_nan_false in H.
  rewrite FloatAxioms.leb_spec, FloatAxioms.ltb_spec.
  change (Prim2SF 0) with (S754_zero false).
  destruct (Prim2SF x) as [s|s| |s m e]; try reflexivity; try congruence;
    destruct s; reflexivity.
Qed.

(** Multiplication of doubles commutes. *)
Lemma mul_comm (x y : float) : x * y = y * x.
Proof.
  apply Prim2SF_inj. rewrite !mul_spec.
  destruct (Prim2SF x) as [s|s| |s m e], (Prim2SF y) as [s'|s'| |s' m' e'];
    cbn; try reflexivity; try (now rewrite xorb_comm).
  unfold SF64mul, SFmul.
  now rewrite xorb_comm, Pos.mul_comm, Z.add_comm.
Qed.

Lemma mul_1_r (x : float) : x * 1 = x.
Proof. rewrite mul_comm. apply mul_1_l. Qed.

(** A positive finite double is not NaN, not negative, not zero and not
    [+infinity]. *)
Lemma positive_finite_cases (x : float) :
  (0 <? x) && is_finite x = true ->
  is_nan x = false /\ (0 <=? x) = true /\ (x =? 0) = false
  /\ (x =? infinity) = false.
Proof.
  intros H. apply andb_prop in H as [Hpos Hfin].
  unfold is_finite in Hfin. apply negb_true_iff, orb_false_iff in Hfin.
  destruct Hfin as [Hnan Hinf]. unfold is_infinity in Hinf.
  rewrite FloatAxioms.eqb_spec, abs_spec in Hinf.
  rewrite FloatAxioms.ltb_spec in Hpos.
  rewrite FloatAxioms.leb_spec, !FloatAxioms.eqb_spec.
  change (Prim2SF 0) with (S754_zero false) in *.
  change (Prim2SF infinity) with (S754_infinity false) in *.
  split; [exact Hnan|].
  destruct (Prim2SF x) as [s|s| |s m e]; try discriminate;
    destruct s; try discriminate; repeat split; reflexivity.
Qed.

End Double.

(** * Lemmas on lists and buffers *)

Lemma map_nth_seq (l : list float) (d : float) :
  map (fun i => nth i l d) (seq 0 (List.length l)) = l.
Proof.
  induction l as [|x l IH]; [reflexivity|].
  cbn [List.length seq map nth]. f_equal.
  rewrite <- seq_shift, map_map. exact IH.
Qed.

Lemma existsb_map {A B : Type} (f : A -> B) (p : B -> bool) (l : list A) :
  existsb p (map f l) = existsb (fun a => p (f a)) l.
Proof.
  induction l as [|a l IH]; [reflexivity|]. cbn. now rewrite IH.
Qed.

Lemma existsb_ext_in {A : Type} (p q : A -> bool) (l : list A) :
  (forall a, In a l -> p a = q a) -> existsb p l = existsb q l.
Proof.
  induction l as [|a l IH]; intros H; [reflexivity|].
  cbn. rewrite (H a (or_introl eq_refl)), IH; [reflexivity|].
  intros b Hb. apply H. now right.
Qed.

Lemma existsb_negb_forallb {A : Type} (p : A -> bool) (l : list A) :
  existsb (fun a => negb (p a)) l = negb (forallb p l).
Proof.
  induction l as [|a l IH]; [reflexivity|].
  cbn. rewrite IH. now destruct (p a).
Qed.

Lemma add_at_length (i : nat) (v : float) (l : list float) :
  List.length (add_at i v l) = List.length l.
Proof.
  revert i. induction l as [|g l IH]; intros [|i]; cbn; auto.
Qed.

Lemma nth_add_at_same (i : nat) (v d : float) (l : list float) :
  (i < List.length l)%nat -> nth i (add_at i v l) d = nth i l d + v.
Proof.
  revert i. induction l as [|g l IH]; intros [|i] H; cbn in *; try lia.
  - reflexivity.
  - apply IH. lia.
Qed.

Lemma nth_add_at_other (i j : nat) (v d : float) (l : list float) :
  i <> j -> nth i (add_at j v l) d = nth i l d.
Proof.
  revert i j. induction l as [|g l IH]; intros [|i] [|j] H; cbn;
    try reflexivity; try congruence.
  apply IH. congruence.
Qed.

Lemma nth_add_at (i j : nat) (v d : float) (l : list float) :
  (i < List.length l)%nat ->
  nth i (add_at j v l) d = if (j =? i)%nat then nth i l d + v else nth i l d.
Proof.
  intros H. destruct (Nat.eqb_spec j i) as [->|Hne].
  - now apply nth_add_at_same.
  - apply nth_add_at_other. congruence.
Qed.

(** A buffer is the list of its slots. *)
Lemma buffer_slots (l : list float) (k : nat) (d : float) :
  List.length l = k -> l = map (fun i => nth i l d) (seq 0 k).
Proof. intros <-. symmetry. apply map_nth_seq. Qed.

(** * Lemmas on the helpers *)

Lemma slot_in_range (a : Argument) (i : nat) :
  (i < length a)%nat -> slot a i = i.
Proof.
  unfold slot. destruct (Nat.eqb_spec (length a) 1); lia.
Qed.

Lemma slot_lt (a : Argument) (N n : nat) :
  consistent_size a N = true -> (n < N)%nat -> (slot a n < length a)%nat.
Proof.
  unfold consistent_size, slot. intros H Hn.
  destruct (Nat.eqb_spec (length a) 1) as [E|E]; [lia|].
  rewrite orb_false_r in H. apply Nat.eqb_eq in H. lia.
Qed.

Lemma seq_view_in_range (a : Argument) (i : nat) :
  (i < length a)%nat -> seq_view a i = nth i (elems a) nan.
Proof. intros H. unfold seq_view. now rewrite slot_in_range. Qed.

(** The scan of lines 75-77 finds a zero exactly when [y] holds one. *)
Lemma zero_variate_has_zero (y : Argument) :
  @zero_variate y = has_zero y.
Proof.
  unfold zero_variate, has_zero.
  rewrite <- (map_nth_seq (elems y) nan) at 1.
  rewrite existsb_map. apply existsb_ext_in.
  intros i Hi. apply in_seq in Hi.
  rewrite seq_view_in_range; [reflexivity|]. unfold length. lia.
Qed.

Lemma forallb_andb {A : Type} (p q : A -> bool) (l : list A) :
  forallb (fun a => p a && q a) l = forallb p l && forallb q l.
Proof.
  induction l as [|a l IH]; [reflexivity|].
  cbn. rewrite IH. destruct (p a), (q a), (forallb p l); reflexivity.
Qed.

(** * The paths through the function *)

Section Paths.

Context {SF : SpecialFunctions}.

Lemma size_zero_true (y nu : Argument) :
  size_zero y nu = true <-> length y = 0%nat \/ length nu = 0%nat.
Proof.
  unfold size_zero. rewrite orb_true_iff, !Nat.eqb_eq. reflexivity.
Qed.

Lemma size_zero_false (y nu : Argument) :
  size_zero y nu = false <-> length y <> 0%nat /\ length nu <> 0%nat.
Proof.
  unfold size_zero. rewrite orb_false_iff, !Nat.eqb_neq. reflexivity.
Qed.

(** Lines 51-52. *)
Lemma cdf_empty (y nu : Operand) :
  size_zero (value_of y) (value_of nu) = true ->
  inv_chi_square_cdf y nu = inr (constant 1).
Proof. intros H. unfold inv_chi_square_cdf. now rewrite H. Qed.

Lemma checks_pass (y nu : Argument) :
  valid_input y nu = true ->
  check_positive_finite nu = inr tt /\ check_not_nan y = inr tt /\
  check_nonnegative y = inr tt /\ check_consistent_sizes y nu = inr tt.
Proof.
  unfold valid_input, nonnegative_not_nan, broadcast_compatible.
  rewrite forallb_andb, !andb_true_iff. intros [[Hnu [Hnan Hneg]] Hsz].
  assert (Hneg' : forallb (fun x => 0 <=? x) (elems y) = true) by exact Hneg.
  unfold check_positive_finite, check_not_nan, check_nonnegative,
    check_consistent_sizes.
  rewrite Hnu, Hnan, Hneg'. apply andb_true_iff in Hsz. rewrite Hsz.
  repeat split.
Qed.

(** Lines 61-131 on an input that passes the four checks. *)
Lemma cdf_valid (y nu : Operand) :
  size_zero (value_of y) (value_of nu) = false ->
  valid_input (value_of y) (value_of nu) = true ->
  inv_chi_square_cdf y nu =
  inr (if has_zero (value_of y)
       then build y nu (new_operands_and_partials y nu) 0
       else
         let st := main_loop y nu
                     {| P := 1;
                        ops_partials := new_operands_and_partials y nu |} in
         build y nu (scale_partials y nu st) (P st)).
Proof.
  intros Hsz Hv. unfold inv_chi_square_cdf. rewrite Hsz.
  destruct (checks_pass _ _ Hv) as (-> & -> & -> & ->). cbn [bind].
  rewrite zero_variate_has_zero. now destruct (has_zero (value_of y)).
Qed.

(** Lines 61-63 on an input with an element outside the domain. *)
Lemma cdf_domain_error (y nu : Operand) :
  size_zero (value_of y) (value_of nu) = false ->
  has_nonpositive_or_nonfinite (value_of nu) = true
  \/ has_nan_or_negative (value_of y) = true ->
  inv_chi_square_cdf y nu = inl domain_error.
Proof.
  intros Hsz H. unfold inv_chi_square_cdf. rewrite Hsz.
  unfold check_positive_finite.
  destruct (forallb positive_finite (elems (value_of nu))) eqn:Hnu.
  2: reflexivity.
  cbn [bind]. destruct H as [H|H].
  { unfold has_nonpositive_or_nonfinite in H.
    rewrite (existsb_ext_in _ (fun x => negb (positive_finite x))) in H.
    - rewrite existsb_negb_forallb, Hnu in H. discriminate.
    - intros x _. unfold positive_finite. now rewrite negb_andb. }
  unfold check_not_nan.
  destruct (forallb (fun x => negb (is_nan x)) (elems (value_of y))) eqn:Hnan.
  2: reflexivity.
  cbn [bind]. unfold check_nonnegative.
  destruct (forallb (fun x => 0 <=? x) (elems (value_of y))) eqn:Hneg.
  2: reflexivity.
  exfalso. unfold has_nan_or_negative in H.
  apply existsb_exists in H as (x & Hx & Hbad).
  rewrite forallb_forall in Hnan, Hneg.
  specialize (Hnan x Hx). specialize (Hneg x Hx).
  apply negb_true_iff in Hnan.
  rewrite Hnan, (Double.leb_0_ltb x Hnan) in *. cbn in Hbad.
  rewrite Hbad in Hneg. discriminate.
Qed.

(** Lines 61-65 on an input whose elements are in the domain and whose
    lengths do not fit. *)
Lemma cdf_invalid_argument (y nu : Operand) :
  size_zero (value_of y) (value_of nu) = false ->
  has_nonpositive_or_nonfinite (value_of nu) = false ->
  has_nan_or_negative (value_of y) = false ->
  broadcast_compatible (value_of y) (value_of nu) = false ->
  inv_chi_square_cdf y nu = inl invalid_argument.
Proof.
  intros Hsz Hnu Hy Hbc. unfold inv_chi_square_cdf. rewrite Hsz.
  unfold has_nonpositive_or_nonfinite in Hnu.
  rewrite (existsb_ext_in _ (fun x => negb (positive_finite x))) in Hnu.
  2: { intros x _. unfold positive_finite. now rewrite negb_andb. }
  rewrite existsb_negb_forallb in Hnu. apply negb_false_iff in Hnu.
  unfold check_positive_finite. rewrite Hnu. cbn [bind].
  unfold has_nan_or_negative in Hy.
  assert (Hall : forall x, In x (elems (value_of y)) ->
                 is_nan x = false /\ (0 <=? x) = true).
  { intros x Hx.
    destruct (is_nan x || (x <? 0)) eqn:E.
    - assert (existsb (fun x => is_nan x || (x <? 0)) (elems (value_of y))
              = true) by (apply existsb_exists; eauto).
      congruence.
    - apply orb_false_iff in E as [E1 E2]. split; [exact E1|].
      now rewrite (Double.leb_0_ltb x E1), E2. }
  unfold check_not_nan, check_nonnegative.
  replace (forallb (fun x => negb (is_nan x)) (elems (value_of y))) with true.
  2: { symmetry. apply forallb_forall. intros x Hx.
       now rewrite (proj1 (Hall x Hx)). }
  replace (forallb (fun x => 0 <=? x) (elems (value_of y))) with true.
  2: { symmetry. apply forallb_forall. intros x Hx. apply (Hall x Hx). }
  cbn [bind]. unfold check_consistent_sizes.
  unfold broadcast_compatible in Hbc. now rewrite Hbc.
Qed.

End Paths.

(** * The main loop *)

Section Loop.

Context {SF : SpecialFunctions}.

Variables y nu : Operand.

Let body := loop_body y nu (gamma_vec nu) (digamma_vec nu).

(** Line 98-100: a position whose variate is [+infinity] is skipped. *)
Lemma loop_body_skip (g dg : list float) (st : loop_state) (n : nat) :
  finite_at (value_of y) n = false -> loop_body y nu g dg st n = st.
Proof.
  unfold finite_at, loop_body. intros H. apply negb_false_iff in H.
  now rewrite H.
Qed.

Lemma slot_idem (a : Argument) (n : nat) : slot a (slot a n) = slot a n.
Proof. unfold slot. now destruct (length a =? 1)%nat. Qed.

(** The caches hold [Gamma(nu/2)] and [psi(nu/2)] of the element a position
    maps to. *)
Lemma cache_at_map (f : float -> float) (n : nat) :
  (slot (value_of nu) n < length (value_of nu))%nat ->
  cache_at (value_of nu)
    (map (fun i => f (0.5 * seq_view (value_of nu) i))
         (seq 0 (length (value_of nu)))) n
  = f (0.5 * seq_view (value_of nu) n).
Proof.
  intros H. unfold cache_at.
  rewrite (nth_indep _ nan (f (0.5 * seq_view (value_of nu) 0))).
  2: now rewrite length_map, length_seq.
  rewrite (map_nth (fun i => f (0.5 * seq_view (value_of nu) i))).
  rewrite seq_nth by exact H. cbn [Nat.add].
  unfold seq_view. now rewrite slot_idem.
Qed.

Lemma P_loop_body (g dg : list float) (st : loop_state) (n : nat) :
  finite_at (value_of y) n = true ->
  P (loop_body y nu g dg st n) = P st * Q_term (value_of y) (value_of nu) n.
Proof.
  unfold finite_at, loop_body. intros H. apply negb_true_iff in H.
  now rewrite H.
Qed.

Lemma edge1_loop_body (g dg : list float) (st : loop_state) (n : nat) :
  finite_at (value_of y) n = true ->
  edge1_ (ops_partials (loop_body y nu g dg st n)) =
  if differentiable y
  then accumulate (value_of y) n (y_term (value_of y) (value_of nu) n)
         (edge1_ (ops_partials st))
  else edge1_ (ops_partials st).
Proof.
  unfold finite_at, loop_body. intros H. apply negb_true_iff in H.
  now rewrite H.
Qed.

Lemma edge2_loop_body (st : loop_state) (n : nat) :
  finite_at (value_of y) n = true ->
  (slot (value_of nu) n < length (value_of nu))%nat ->
  edge2_ (ops_partials (body st n)) =
  if differentiable nu
  then accumulate (value_of nu) n (nu_term (value_of y) (value_of nu) n)
         (edge2_ (ops_partials st))
  else edge2_ (ops_partials st).
Proof.
  unfold finite_at, body, loop_body. intros H Hs. apply negb_true_iff in H.
  rewrite H. cbn [ops_partials edge2_].
  destruct (differentiable nu) eqn:Hd; [|reflexivity].
  unfold gamma_vec, digamma_vec. rewrite Hd.
  rewrite (cache_at_map tgamma n Hs), (cache_at_map digamma n Hs).
  reflexivity.
Qed.

(** The loop run over all positions is the loop run over the positions
    whose variate is not [+infinity]. *)
Lemma loop_skips_infinite (ns : list nat) (st : loop_state) :
  fold_left body ns st = fold_left body (filter (finite_at (value_of y)) ns) st.
Proof.
  revert st. induction ns as [|n ns IH]; intros st; [reflexivity|].
  cbn [fold_left filter].
  destruct (finite_at (value_of y) n) eqn:E.
  - cbn [fold_left]. apply IH.
  - unfold body at 2. rewrite (loop_body_skip _ _ _ _ E). apply IH.
Qed.

Lemma P_loop (ns : list nat) (st : loop_state) :
  P (fold_left body ns st) =
  fold_left (fun p n => p * Q_term (value_of y) (value_of nu) n)
            (filter (finite_at (value_of y)) ns) (P st).
Proof.
  revert st. induction ns as [|n ns IH]; intros st; [reflexivity|].
  cbn [fold_left filter]. rewrite IH.
  destruct (finite_at (value_of y) n) eqn:E.
  - cbn [fold_left]. unfold body. now rewrite (P_loop_body _ _ _ _ E).
  - unfold body. now rewrite (loop_body_skip _ _ _ _ E).
Qed.

Lemma edge1_loop (ns : list nat) (st : loop_state) :
  edge1_ (ops_partials (fold_left body ns st)) =
  if differentiable y
  then fold_left
         (fun b n => accumulate (value_of y) n
                       (y_term (value_of y) (value_of nu) n) b)
         (filter (finite_at (value_of y)) ns) (edge1_ (ops_partials st))
  else edge1_ (ops_partials st).
Proof.
  revert st. induction ns as [|n ns IH]; intros st.
  { cbn. now destruct (differentiable y). }
  cbn [fold_left filter]. rewrite IH.
  destruct (finite_at (value_of y) n) eqn:E.
  - cbn [fold_left]. unfold body. rewrite (edge1_loop_body _ _ _ _ E).
    now destruct (differentiable y).
  - unfold body. now rewrite (loop_body_skip _ _ _ _ E).
Qed.

Lemma edge2_loop (ns : list nat) (st : loop_state) :
  (forall n, In n ns ->
     (slot (value_of nu) n < length (value_of nu))%nat) ->
  edge2_ (ops_partials (fold_left body ns st)) =
  if differentiable nu
  then fold_left
         (fun b n => accumulate (value_of nu) n
                       (nu_term (value_of y) (value_of nu) n) b)
         (filter (finite_at (value_of y)) ns) (edge2_ (ops_partials st))
  else edge2_ (ops_partials st).
Proof.
  revert st. induction ns as [|n ns IH]; intros st Hin.
  { cbn. now destruct (differentiable nu). }
  cbn [fold_left filter]. rewrite IH by (intros m Hm; apply Hin; now right).
  destruct (finite_at (value_of y) n) eqn:E.
  - cbn [fold_left].
    rewrite (edge2_loop_body _ _ E (Hin n (or_introl eq_refl))).
    now destruct (differentiable nu).
  - unfold body. now rewrite (loop_body_skip _ _ _ _ E).
Qed.

End Loop.

(** A slot of a buffer after a run of accumulations is its old content
    plus, in order, what the positions of that slot added. *)
Lemma nth_fold_accumulate (a : Argument) (t : nat -> float) (ns : list nat)
    (b : list float) (i : nat) (d : float) :
  (i < List.length b)%nat ->
  nth i (fold_left (fun b n => accumulate a n (t n) b) ns b) d =
  fold_left (fun s n => s + t n)
            (filter (fun n => (slot a n =? i)%nat) ns) (nth i b d).
Proof.
  revert b. induction ns as [|n ns IH]; intros b Hi; [reflexivity|].
  cbn [fold_left filter]. rewrite IH.
  2: { unfold accumulate. now rewrite add_at_length. }
  unfold accumulate. rewrite nth_add_at by exact Hi.
  now destruct (slot a n =? i)%nat.
Qed.

Lemma length_fold_accumulate (a : Argument) (t : nat -> float)
    (ns : list nat) (b : list float) :
  List.length (fold_left (fun b n => accumulate a n (t n) b) ns b)
  = List.length b.
Proof.
  revert b. induction ns as [|n ns IH]; intros b; [reflexivity|].
  cbn [fold_left]. rewrite IH. apply add_at_length.
Qed.

(** * The result on a regular input *)

Section Regular.

Context {SF : SpecialFunctions}.

(** The scaled buffer of a differentiable operand. *)
Lemma scaled_buffer (t : Argument -> Argument -> nat -> float)
    (a y nu : Argument) :
  map (fun g => g * cdf_product y nu)
    (fold_left (fun b n => accumulate a n (t y nu n) b)
       (finite_positions y nu) (repeat 0 (length a)))
  = expected_gradient t a y nu.
Proof.
  unfold expected_gradient.
  rewrite (buffer_slots (fold_left _ _ _) (length a) nan) at 1.
  2: now rewrite length_fold_accumulate, repeat_length.
  rewrite map_map. apply map_ext_in. intros i Hi. apply in_seq in Hi.
  rewrite nth_fold_accumulate by (rewrite repeat_length; lia).
  rewrite nth_repeat_lt by lia. reflexivity.
Qed.

Lemma valid_input_sizes (y nu : Argument) :
  valid_input y nu = true ->
  consistent_size y (max_size y nu) = true
  /\ consistent_size nu (max_size y nu) = true.
Proof.
  unfold valid_input, broadcast_compatible. rewrite !andb_true_iff. tauto.
Qed.

(** Lines 95-131 on a valid, non-empty input without a zero variate. *)
Lemma cdf_regular (y nu : Operand) :
  size_zero (value_of y) (value_of nu) = false ->
  valid_input (value_of y) (value_of nu) = true ->
  has_zero (value_of y) = false ->
  inv_chi_square_cdf y nu =
  inr {| value := cdf_product (value_of y) (value_of nu);
         grad_y :=
           if differentiable y
           then Some (expected_gradient y_term (value_of y)
                        (value_of y) (value_of nu))
           else None;
         grad_nu :=
           if differentiable nu
           then Some (expected_gradient nu_term (value_of nu)
                        (value_of y) (value_of nu))
           else None |}.
Proof.
  intros Hsz Hv Hz. rewrite (cdf_valid _ _ Hsz Hv), Hz. cbv zeta.
  unfold build, scale_partials, main_loop. cbn [edge1_ edge2_].
  rewrite P_loop, edge1_loop, edge2_loop.
  2: { intros n Hn. apply in_seq in Hn.
       apply (slot_lt _ (max_size (value_of y) (value_of nu)));
         [apply (valid_input_sizes _ _ Hv) | lia]. }
  cbn [P ops_partials new_operands_and_partials edge1_ edge2_].
  fold (finite_positions (value_of y) (value_of nu)).
  change (fold_left (fun p n => p * Q_term (value_of y) (value_of nu) n)
            (finite_positions (value_of y) (value_of nu)) 1)
    with (cdf_product (value_of y) (value_of nu)).
  unfold new_partials. f_equal. f_equal.
  - destruct (differentiable y); [|reflexivity].
    f_equal. apply (scaled_buffer y_term).
  - destruct (differentiable nu); [|reflexivity].
    f_equal. apply (scaled_buffer nu_term).
Qed.

End Regular.

(** * Further lemmas on the helpers *)

Lemma valid_nonempty (y nu : Argument) :
  valid_input y nu = true -> length y <> 0%nat -> size_zero y nu = false.
Proof.
  intros Hv Hy. apply valid_input_sizes in Hv as [_ Hnu].
  apply size_zero_false. split; [exact Hy|].
  unfold consistent_size, max_size in Hnu.
  apply orb_true_iff in Hnu as [H|H]; apply Nat.eqb_eq in H; lia.
Qed.

Lemma has_zero_nonempty (y : Argument) :
  has_zero y = true -> length y <> 0%nat.
Proof.
  unfold has_zero, length. destruct (elems y); [discriminate|]. cbn. lia.
Qed.

Lemma mismatch_not_compatible (y nu : Argument) :
  length y <> length nu -> length y <> 1%nat -> length nu <> 1%nat ->
  broadcast_compatible y nu = false.
Proof.
  intros Hd Hy Hnu. unfold broadcast_compatible, consistent_size, max_size.
  apply andb_false_iff.
  destruct (Nat.max_spec (length y) (length nu)) as [[Hlt ->]|[Hle ->]].
  - left. apply orb_false_iff. split; apply Nat.eqb_neq; lia.
  - right. apply orb_false_iff. split; apply Nat.eqb_neq; lia.
Qed.

Lemma filter_none {A : Type} (f : A -> bool) (l : list A) :
  (forall a, In a l -> f a = false) -> filter f l = [].
Proof.
  induction l as [|a l IH]; intros H; [reflexivity|].
  cbn. rewrite (H a (or_introl eq_refl)). apply IH.
  intros b Hb. apply H. now right.
Qed.

Lemma map_const {A B : Type} (c : B) (l : list A) :
  map (fun _ => c) l = repeat c (List.length l).
Proof. induction l as [|a l IH]; [reflexivity|]. cbn. now rewrite IH. Qed.

(** Among the positions [s .. s+k-1] that pass [f], the ones equal to [n]. *)
Lemma filter_eqb_seq (f : nat -> bool) (n s k : nat) :
  filter (fun m => (m =? n)%nat) (filter f (seq s k)) =
  if (s <=? n)%nat && (n <? s + k)%nat && f n then [n] else [].
Proof.
  revert s. induction k as [|k IH]; intros s.
  - cbn [seq filter].
    destruct (Nat.leb_spec s n), (Nat.ltb_spec n (s + 0));
      cbn [andb]; try reflexivity; lia.
  - assert (Hstep : filter (fun m => (m =? n)%nat) (filter f (seq s (S k)))
                    = if f s && (s =? n)%nat
                      then s :: filter (fun m => (m =? n)%nat)
                                  (filter f (seq (S s) k))
                      else filter (fun m => (m =? n)%nat)
                             (filter f (seq (S s) k))).
    { cbn [seq filter]. destruct (f s); [|reflexivity].
      cbn [filter andb]. reflexivity. }
    rewrite Hstep, IH. clear Hstep IH.
    destruct (Nat.eqb_spec s n) as [->|Hne].
    + destruct (f n); cbn [andb];
        destruct (Nat.leb_spec (S n) n), (Nat.leb_spec n n),
          (Nat.ltb_spec n (n + S k)); cbn [andb]; try reflexivity; lia.
    + rewrite andb_false_r.
      destruct (Nat.leb_spec (S s) n), (Nat.leb_spec s n),
        (Nat.ltb_spec n (S s + k)), (Nat.ltb_spec n (s + S k)); cbn [andb];
        try reflexivity; lia.
Qed.

(** When an argument is as long as the broadcast length, each position
    that is not skipped is alone in its slot. *)
Lemma positions_of_own_slot (a y nu : Argument) (n : nat) :
  length a = max_size y nu -> (n < max_size y nu)%nat ->
  finite_at y n = true ->
  positions_of_slot a y nu n = [n].
Proof.
  intros Hlen Hn Hfin. unfold positions_of_slot, finite_positions.
  rewrite (filter_ext_in _ (fun m => (m =? n)%nat)).
  - rewrite filter_eqb_seq, Hfin.
    destruct (Nat.leb_spec 0 n), (Nat.ltb_spec n (0 + max_size y nu)); cbn;
      try reflexivity; lia.
  - intros m Hm. apply filter_In in Hm as [Hm _]. apply in_seq in Hm.
    rewrite slot_in_range; [reflexivity | lia].
Qed.

Lemma nth_map_seq (f : nat -> float) (k i : nat) (d : float) :
  (i < k)%nat -> nth i (map f (seq 0 k)) d = f i.
Proof.
  intros H. rewrite (nth_indep _ d (f 0%nat)).
  - rewrite map_nth, seq_nth by exact H. reflexivity.
  - now rewrite length_map, length_seq.
Qed.

(** * The properties of the specification *)

Section Properties.

Context {SF : SpecialFunctions}.

(** C1: on a valid non-empty input without a zero variate the call returns
    the product, over the broadcast positions [n < N] whose variate is not
    [+infinity], of [Q(nu(n)/2, (1/y(n))/2)]. *)
Theorem value_is_product (y nu : Operand) :
  valid_input (value_of y) (value_of nu) = true ->
  length (value_of y) <> 0%nat -> length (value_of nu) <> 0%nat ->
  has_zero (value_of y) = false ->
  exists r,
    inv_chi_square_cdf y nu = inr r
    /\ value r = cdf_product (value_of y) (value_of nu).
Proof.
  intros Hv Hy Hnu Hz. eexists. split.
  - apply cdf_regular; [apply size_zero_false; now split|exact Hv|exact Hz].
  - reflexivity.
Qed.

(** C2, as amended: on a valid non-empty input with [y] differentiable and
    no zero variate, each y-gradient slot is the sum, taken from 0.0 in
    loop order over the positions of that slot whose variate is not
    [+infinity], of
    [0.5 * y_inv^2 * exp(-0.5*y_inv) * (0.5*y_inv)^(nu(n)/2 - 1)
     / Gamma(nu(n)/2) / Pn],
    multiplied by the total product [P]; when [y] is as long as the
    broadcast length, the slot of such a position [n] holds that one
    quantity, added to 0.0 and multiplied by [P]. *)
Theorem y_gradient_is_scaled_sum (y nu : Operand) :
  valid_input (value_of y) (value_of nu) = true ->
  length (value_of y) <> 0%nat -> length (value_of nu) <> 0%nat ->
  differentiable y = true ->
  has_zero (value_of y) = false ->
  exists r g,
    inv_chi_square_cdf y nu = inr r
    /\ grad_y r = Some g
    /\ List.length g = length (value_of y)
    /\ (forall i, (i < length (value_of y))%nat ->
          nth i g nan =
          sum_over (y_term (value_of y) (value_of nu))
            (positions_of_slot (value_of y) (value_of y) (value_of nu) i)
          * value r)
    /\ (length (value_of y) = max_size (value_of y) (value_of nu) ->
        forall n, (n < max_size (value_of y) (value_of nu))%nat ->
          finite_at (value_of y) n = true ->
          nth n g nan =
          (0 + y_term (value_of y) (value_of nu) n) * value r).
Proof.
  intros Hv Hy Hnu Hd Hz. eexists. eexists. split.
  { apply cdf_regular; [apply size_zero_false; now split|exact Hv|exact Hz]. }
  cbn [grad_y value]. rewrite Hd. split; [reflexivity|].
  unfold expected_gradient. split; [now rewrite length_map, length_seq|].
  split.
  - intros i Hi. now rewrite nth_map_seq.
  - intros Hlen n Hn Hfin. rewrite nth_map_seq by lia.
    now rewrite (positions_of_own_slot _ _ _ _ Hlen Hn Hfin).
Qed.

(** C3: for a differentiable scalar [nu] and a valid [y] of length 2
    without zeros or infinities, the single nu-gradient slot is the sum
    over both positions of
    [0.5 * grad_Q(nu/2, (1/y(n))/2, Gamma(nu/2), psi(nu/2)) / Pn],
    multiplied once by the total product [P]: the second position adds to
    what the first one stored. *)
Theorem nu_gradient_sums_shared_slot (dy : bool) (y1 y2 v : float) :
  let Pn := fun yn => gamma_q (0.5 * v) (0.5 * (1 / yn)) in
  let dPn := fun yn =>
    0.5 * grad_reg_inc_gamma (0.5 * v) (0.5 * (1 / yn))
            (tgamma (0.5 * v)) (digamma (0.5 * v)) / Pn yn in
  valid_input (Seq [y1; y2]) (Scalar v) = true ->
  has_zero (Seq [y1; y2]) = false ->
  (y1 =? infinity) = false -> (y2 =? infinity) = false ->
  exists r,
    inv_chi_square_cdf (mkOperand dy (Seq [y1; y2]))
                       (mkOperand true (Scalar v)) = inr r
    /\ value r = 1 * Pn y1 * Pn y2
    /\ grad_nu r = Some [(0 + dPn y1 + dPn y2) * value r].
Proof.
  intros Pn dPn Hv Hz H1 H2. eexists. split.
  { apply cdf_regular; [reflexivity|exact Hv|exact Hz]. }
  cbn [value grad_nu differentiable value_of].
  assert (Hpos : finite_positions (Seq [y1; y2]) (Scalar v) = [0; 1]%nat).
  { unfold finite_positions, finite_at.
    change (max_size (Seq [y1; y2]) (Scalar v)) with 2%nat.
    cbn [seq filter].
    change (seq_view (Seq [y1; y2]) 0) with y1.
    change (seq_view (Seq [y1; y2]) 1) with y2.
    now rewrite H1, H2. }
  unfold expected_gradient, positions_of_slot, cdf_product.
  rewrite Hpos. split; reflexivity.
Qed.

(** C4: on a valid input in which some element of [y] is exactly 0 the
    call returns 0.0, and every gradient slot of a differentiable operand
    is zero. *)
Theorem zero_variate_returns_zero (y nu : Operand) :
  valid_input (value_of y) (value_of nu) = true ->
  has_zero (value_of y) = true ->
  inv_chi_square_cdf y nu =
  inr {| value := 0;
         grad_y := if differentiable y
                   then Some (repeat 0 (length (value_of y))) else None;
         grad_nu := if differentiable nu
                    then Some (repeat 0 (length (value_of nu))) else None |}.
Proof.
  intros Hv Hz.
  rewrite (cdf_valid y nu); [|now apply valid_nonempty, has_zero_nonempty|exact Hv].
  rewrite Hz. unfold build, new_operands_and_partials, new_partials.
  cbn [edge1_ edge2_].
  now destruct (differentiable y), (differentiable nu).
Qed.

(** C5: on a valid non-empty input without a zero variate, an iteration at
    a position whose variate is [+infinity] leaves the running product as
    it is, which is to multiply it by exactly 1, and leaves every partials
    buffer untouched, so that the whole loop is the loop over the other
    positions; and for a scalar [y = +infinity] the call returns exactly 1
    with every requested gradient slot zero. *)
Theorem infinite_variate_is_skipped (y nu : Operand) :
  valid_input (value_of y) (value_of nu) = true ->
  length (value_of y) <> 0%nat -> length (value_of nu) <> 0%nat ->
  has_zero (value_of y) = false ->
  (forall n st,
     (n < max_size (value_of y) (value_of nu))%nat ->
     (seq_view (value_of y) n =? infinity) = true ->
     let st' := loop_body y nu (gamma_vec nu) (digamma_vec nu) st n in
     P st' = P st * 1 /\ ops_partials st' = ops_partials st)
  /\ (forall st,
        main_loop y nu st =
        fold_left (loop_body y nu (gamma_vec nu) (digamma_vec nu))
          (finite_positions (value_of y) (value_of nu)) st)
  /\ (value_of y = Scalar infinity ->
      inv_chi_square_cdf y nu =
      inr {| value := 1;
             grad_y := if differentiable y then Some [0] else None;
             grad_nu := if differentiable nu
                        then Some (repeat 0 (length (value_of nu)))
                        else None |}).
Proof.
  intros Hv Hy Hnu Hz. split; [|split].
  - intros n st _ Hinf. cbv zeta. rewrite loop_body_skip.
    + now rewrite Double.mul_1_r.
    + unfold finite_at. now rewrite Hinf.
  - intros st. apply loop_skips_infinite.
  - intros Hinf.
    rewrite (cdf_regular y nu); [|apply size_zero_false; now split|exact Hv|exact Hz].
    assert (Hnone : finite_positions (value_of y) (value_of nu) = []).
    { unfold finite_positions. apply filter_none. intros n _.
      rewrite Hinf. reflexivity. }
    unfold expected_gradient, positions_of_slot, cdf_product.
    rewrite Hnone. cbn [filter]. unfold sum_over, product_over.
    cbn [fold_left].
    change (0 * 1) with 0. rewrite !map_const, !length_seq.
    rewrite Hinf at 1. reflexivity.
Qed.

(** C6: when [y] or [nu] is an empty sequence the call returns exactly 1.0
    and no gradient slots. *)
Theorem empty_input_returns_one (y nu : Operand) :
  length (value_of y) = 0%nat \/ length (value_of nu) = 0%nat ->
  inv_chi_square_cdf y nu =
  inr {| value := 1; grad_y := None; grad_nu := None |}.
Proof. intros H. apply cdf_empty, size_zero_true, H. Qed.

(** C7, as amended: on an input without an empty argument, an element of
    [nu] that is non-positive or non-finite, or an element of [y] that is
    NaN or negative, raises a domain error; and when every element is in
    the domain, lengths that differ with neither equal to 1 raise an
    invalid-argument error.  No result is returned in either case. *)
Theorem validation_errors (y nu : Operand) :
  length (value_of y) <> 0%nat -> length (value_of nu) <> 0%nat ->
  (has_nonpositive_or_nonfinite (value_of nu) = true
   \/ has_nan_or_negative (value_of y) = true ->
   inv_chi_square_cdf y nu = inl domain_error)
  /\ (has_nonpositive_or_nonfinite (value_of nu) = false ->
      has_nan_or_negative (value_of y) = false ->
      length (value_of y) <> length (value_of nu) ->
      length (value_of y) <> 1%nat -> length (value_of nu) <> 1%nat ->
      inv_chi_square_cdf y nu = inl invalid_argument).
Proof.
  intros Hy Hnu.
  assert (Hsz : size_zero (value_of y) (value_of nu) = false)
    by (apply size_zero_false; now split).
  split.
  - intros H. now apply cdf_domain_error.
  - intros H1 H2 Hd Hy1 Hnu1. apply cdf_invalid_argument; try assumption.
    now apply mismatch_not_compatible.
Qed.

(** C8, as amended: for a valid scalar [nu] and positive finite scalars
    [y1], [y2], the value of [cdf([y1, y2], nu)] is one number, the
    product of the values of [cdf(y1, nu)] and [cdf(y2, nu)]. *)
Theorem broadcast_value_is_product (dy dnu : bool) (y1 y2 v : float) :
  positive_finite v = true ->
  positive_finite y1 = true -> positive_finite y2 = true ->
  exists r r1 r2,
    inv_chi_square_cdf (mkOperand dy (Seq [y1; y2]))
                       (mkOperand dnu (Scalar v)) = inr r
    /\ inv_chi_square_cdf (mkOperand dy (Scalar y1))
                          (mkOperand dnu (Scalar v)) = inr r1
    /\ inv_chi_square_cdf (mkOperand dy (Scalar y2))
                          (mkOperand dnu (Scalar v)) = inr r2
    /\ value r = value r1 * value r2.
Proof.
  intros Hv H1 H2.
  destruct (Double.positive_finite_cases y1 H1) as (N1 & L1 & Z1 & I1).
  destruct (Double.positive_finite_cases y2 H2) as (N2 & L2 & Z2 & I2).
  assert (V : forall ys, forallb nonnegative_not_nan ys = true ->
              consistent_size (Seq ys) (max_size (Seq ys) (Scalar v)) = true ->
              valid_input (Seq ys) (Scalar v) = true).
  { intros ys Hys Hc. unfold valid_input, broadcast_compatible.
    cbn [elems forallb]. rewrite Hv, Hys, Hc. cbn [andb].
    unfold consistent_size. change (length (Scalar v)) with 1%nat.
    apply orb_true_r. }
  assert (E1 : nonnegative_not_nan y1 = true)
    by (unfold nonnegative_not_nan; now rewrite N1, L1).
  assert (E2 : nonnegative_not_nan y2 = true)
    by (unfold nonnegative_not_nan; now rewrite N2, L2).
  do 3 eexists. split; [|split; [|split]].
  - apply cdf_regular; [reflexivity| |].
    + apply V; [cbn [forallb]; now rewrite E1, E2 | reflexivity].
    + unfold has_zero. cbn [value_of elems existsb]. now rewrite Z1, Z2.
  - apply cdf_regular; [reflexivity| |].
    + apply (V [y1]); [cbn [forallb]; now rewrite E1 | reflexivity].
    + unfold has_zero. cbn [value_of elems existsb]. now rewrite Z1.
  - apply cdf_regular; [reflexivity| |].
    + apply (V [y2]); [cbn [forallb]; now rewrite E2 | reflexivity].
    + unfold has_zero. cbn [value_of elems existsb]. now rewrite Z2.
  - cbn [value value_of]. unfold cdf_product, finite_positions, finite_at.
    change (max_size (Seq [y1; y2]) (Scalar v)) with 2%nat.
    change (max_size (Scalar y1) (Scalar v)) with 1%nat.
    change (max_size (Scalar y2) (Scalar v)) with 1%nat.
    cbn [seq filter].
    change (seq_view (Seq [y1; y2]) 0) with y1.
    change (seq_view (Seq [y1; y2]) 1) with y2.
    change (seq_view (Scalar y1) 0) with y1.
    change (seq_view (Scalar y2) 0) with y2.
    rewrite I1, I2. cbn [negb]. unfold product_over. cbn [fold_left].
    unfold Q_term.
    change (seq_view (Seq [y1; y2]) 0) with y1.
    change (seq_view (Seq [y1; y2]) 1) with y2.
    change (seq_view (Scalar y1) 0) with y1.
    change (seq_view (Scalar y2) 0) with y2.
    change (seq_view (Scalar v) 0) with v.
    change (seq_view (Scalar v) 1) with v.
    now rewrite (Double.mul_1_l (gamma_q (0.5 * v) (0.5 * (1 / y2)))).
Qed.

(** C9: when either argument has length 0 the call returns 1.0 and raises
    no error, whatever the elements of the other argument are: the
    short-circuit comes before every check. *)
Theorem empty_input_skips_validation (y nu : Operand) :
  length (value_of y) = 0%nat \/ length (value_of nu) = 0%nat ->
  inv_chi_square_cdf y nu = inr (constant 1)
  /\ forall e, inv_chi_square_cdf y nu <> inl e.
Proof.
  intros H. apply size_zero_true in H.
  rewrite (cdf_empty _ _ H). split; [reflexivity | discriminate].
Qed.

(** C10: on a non-empty input the checks come before the scan for a zero
    variate: a non-positive or non-finite element of [nu], or a NaN or
    negative element of [y], raises a domain error whether or not [y] also
    holds a zero. *)
Theorem validation_precedes_zero_variate (y nu : Operand) :
  length (value_of y) <> 0%nat -> length (value_of nu) <> 0%nat ->
  has_nonpositive_or_nonfinite (value_of nu) = true
  \/ has_nan_or_negative (value_of y) = true ->
  inv_chi_square_cdf y nu = inl domain_error.
Proof.
  intros Hy Hnu H. apply cdf_domain_error; [|exact H].
  apply size_zero_false. now split.
Qed.

End Properties.

(** * The properties on concrete inputs *)

(** [cdf([], 3)]. *)
Lemma empty_input_returns_one_witness :
  @inv_chi_square_cdf sample_functions
    (mkOperand true (Seq [])) (mkOperand true (Scalar 3))
  = inr {| value := 1; grad_y := None; grad_nu := None |}.
Proof.
  apply (@empty_input_returns_one sample_functions). left. reflexivity.
Defined.

(** [cdf([], [-1, NaN])]: the elements of [nu] are outside the domain. *)
Lemma empty_input_skips_validation_witness :
  has_nonpositive_or_nonfinite (Seq [-1; nan]) = true
  /\ @inv_chi_square_cdf sample_functions
       (mkOperand true (Seq [])) (mkOperand true (Seq [-1; nan]))
     = inr (constant 1).
Proof.
  split; [reflexivity|].
  apply (@empty_input_skips_validation sample_functions). left. reflexivity.
Defined.

(** [cdf(0, -1)]. *)
Lemma validation_precedes_zero_variate_witness :
  has_zero (Scalar 0) = true
  /\ @inv_chi_square_cdf sample_functions
       (mkOperand true (Scalar 0)) (mkOperand true (Scalar (-1)))
     = inl domain_error.
Proof.
  split; [reflexivity|].
  apply (@validation_precedes_zero_variate sample_functions).
  - discriminate.
  - discriminate.
  - left. reflexivity.
Defined.

(** [cdf([1, 2, 3], [1, 2])]. *)
Lemma validation_errors_witness :
  @inv_chi_square_cdf sample_functions
    (mkOperand true (Seq [1; 2; 3])) (mkOperand true (Seq [1; 2]))
  = inl invalid_argument.
Proof.
  apply (@validation_errors sample_functions); try discriminate; reflexivity.
Defined.

(** [cdf([1, 0], 3)]. *)
Lemma zero_variate_returns_zero_witness :
  @inv_chi_square_cdf sample_functions
    (mkOperand true (Seq [1; 0])) (mkOperand true (Scalar 3))
  = inr {| value := 0; grad_y := Some [0; 0]; grad_nu := Some [0] |}.
Proof.
  apply (@zero_variate_returns_zero sample_functions
           (mkOperand true (Seq [1; 0])) (mkOperand true (Scalar 3)));
    reflexivity.
Defined.

(** [cdf(+infinity, [2, 4])]. *)
Lemma infinite_variate_is_skipped_witness :
  @inv_chi_square_cdf sample_functions
    (mkOperand true (Scalar infinity)) (mkOperand true (Seq [2; 4]))
  = inr {| value := 1; grad_y := Some [0]; grad_nu := Some [0; 0] |}.
Proof.
  apply (@infinite_variate_is_skipped sample_functions
           (mkOperand true (Scalar infinity)) (mkOperand true (Seq [2; 4])));
    try discriminate; reflexivity.
Defined.

(** [cdf([1, +infinity, 4], 3)]: two factors of 0.5. *)
Lemma value_is_product_witness :
  exists r,
    @inv_chi_square_cdf sample_functions
      (mkOperand true (Seq [1; infinity; 4])) (mkOperand false (Scalar 3))
    = inr r
    /\ value r = 0.25.
Proof.
  apply (@value_is_product sample_functions
           (mkOperand true (Seq [1; infinity; 4]))
           (mkOperand false (Scalar 3)));
    try discriminate; reflexivity.
Defined.

(** [cdf([1, 2], [2, 4])] with [y] differentiable. *)
Lemma y_gradient_is_scaled_sum_witness :
  exists r g,
    @inv_chi_square_cdf sample_functions
      (mkOperand true (Seq [1; 2])) (mkOperand false (Seq [2; 4])) = inr r
    /\ grad_y r = Some g
    /\ List.length g = 2%nat.
Proof.
  destruct (@y_gradient_is_scaled_sum sample_functions
              (mkOperand true (Seq [1; 2])) (mkOperand false (Seq [2; 4])))
    as (r & g & Hr & Hg & Hlen & _); try discriminate; try reflexivity.
  exists r, g. repeat split; assumption.
Defined.

(** [cdf([1, 2], 3)] with [nu] differentiable. *)
Lemma nu_gradient_sums_shared_slot_witness :
  exists r,
    @inv_chi_square_cdf sample_functions
      (mkOperand false (Seq [1; 2])) (mkOperand true (Scalar 3)) = inr r
    /\ value r = 0.25
    /\ grad_nu r = Some [0.1875].
Proof.
  destruct (@nu_gradient_sums_shared_slot sample_functions false 1 2 3)
    as (r & Hr & Hval & Hg); try reflexivity.
  exists r. split; [exact Hr|]. split; [exact Hval|].
  rewrite Hg, Hval. reflexivity.
Defined.

(** [cdf([1, 2], 3)] against [cdf(1, 3)] and [cdf(2, 3)]. *)
Lemma broadcast_value_is_product_witness :
  exists r r1 r2,
    @inv_chi_square_cdf sample_functions
      (mkOperand false (Seq [1; 2])) (mkOperand false (Scalar 3)) = inr r
    /\ @inv_chi_square_cdf sample_functions
         (mkOperand false (Scalar 1)) (mkOperand false (Scalar 3)) = inr r1
    /\ @inv_chi_square_cdf sample_functions
         (mkOperand false (Scalar 2)) (mkOperand false (Scalar 3)) = inr r2
    /\ value r = value r1 * value r2.
Proof.
  apply (@broadcast_value_is_product sample_functions false false 1 2 3);
    reflexivity.
Defined.

(** ** Inputs on which the first wording of the specification fails *)

(** C2 as first stated fails on [cdf(2, [2, 4])] with [y] differentiable:
    both positions are finite and share the one slot of [y], which ends as
    [(0 + 0.25 + 0.25) * 0.25], not as [P] times the quantity of position
    0 alone. *)
Lemma y_gradient_shared_slot_counterexample :
  valid_input (Scalar 2) (Seq [2; 4]) = true
  /\ has_zero (Scalar 2) = false
  /\ finite_at (Scalar 2) 0 = true
  /\ exists r g,
       @inv_chi_square_cdf sample_functions
         (mkOperand true (Scalar 2)) (mkOperand false (Seq [2; 4])) = inr r
       /\ grad_y r = Some g
       /\ nth (slot (Scalar 2) 0) g nan
          <> value r * @y_term sample_functions (Scalar 2) (Seq [2; 4]) 0.
Proof.
  repeat split.
  exists {| value := 0.25; grad_y := Some [0.125]; grad_nu := None |}, [0.125].
  repeat split.
  intros E. apply (f_equal (fun z => z =? 0.125)) in E.
  vm_compute in E. discriminate.
Qed.

(** C7 as first stated fails on inputs with an empty argument, which
    return 1.0 before any check, and on [cdf([1, 2, 3], [-1, 2])], where
    the domain error comes before the lengths are compared. *)
Lemma validation_errors_counterexample :
  (has_nonpositive_or_nonfinite (Seq [-1]) = true
   /\ @inv_chi_square_cdf sample_functions
        (mkOperand false (Seq [])) (mkOperand false (Seq [-1]))
      = inr (constant 1))
  /\ (length (Seq []) <> length (Seq [1; 2])
      /\ length (Seq []) <> 1%nat /\ length (Seq [1; 2]) <> 1%nat
      /\ @inv_chi_square_cdf sample_functions
           (mkOperand false (Seq [])) (mkOperand false (Seq [1; 2]))
         = inr (constant 1))
  /\ (length (Seq [1; 2; 3]) <> length (Seq [-1; 2])
      /\ length (Seq [1; 2; 3]) <> 1%nat /\ length (Seq [-1; 2]) <> 1%nat
      /\ @inv_chi_square_cdf sample_functions
           (mkOperand false (Seq [1; 2; 3])) (mkOperand false (Seq [-1; 2]))
         = inl domain_error).
Proof. repeat split; discriminate. Qed.

(** C8 as first stated fails on [cdf([1, 2], 3)]: the value is the one
    number 0.25, not the pair of [cdf(1, 3) = 0.5] and [cdf(2, 3) = 0.5]. *)
Lemma broadcast_value_counterexample :
  exists r r1 r2,
    @inv_chi_square_cdf sample_functions
      (mkOperand false (Seq [1; 2])) (mkOperand false (Scalar 3)) = inr r
    /\ @inv_chi_square_cdf sample_functions
         (mkOperand false (Scalar 1)) (mkOperand false (Scalar 3)) = inr r1
    /\ @inv_chi_square_cdf sample_functions
         (mkOperand false (Scalar 2)) (mkOperand false (Scalar 3)) = inr r2
    /\ value r = 0.25 /\ value r1 = 0.5 /\ value r2 = 0.5
    /\ [value r] <> [value r1; value r2].
Proof.
  exists {| value := 0.25; grad_y := None; grad_nu := None |},
         {| value := 0.5; grad_y := None; grad_nu := None |},
         {| value := 0.5; grad_y := None; grad_nu := None |}.
  repeat split. discriminate.
Qed.

(** * Further properties of the function *)

Lemma fold_left_ext_in {A B : Type} (f g : A -> B -> A) (l : list B) (a : A) :
  (forall x b, In b l -> f x b = g x b) -> fold_left f l a = fold_left g l a.
Proof.
  revert a. induction l as [|b l IH]; intros a H; [reflexivity|].
  cbn. rewrite (H a b (or_introl eq_refl)). apply IH.
  intros x c Hc. apply H. now right.
Qed.

(** The claims' two domain conditions are the negations of what the three
    domain checks test. *)
Lemma has_nonpositive_or_nonfinite_spec (nu : Argument) :
  has_nonpositive_or_nonfinite nu = negb (forallb positive_finite (elems nu)).
Proof.
  unfold has_nonpositive_or_nonfinite.
  rewrite <- existsb_negb_forallb. apply existsb_ext_in.
  intros x _. unfold positive_finite. now rewrite negb_andb.
Qed.

Lemma has_nan_or_negative_spec (y : Argument) :
  has_nan_or_negative y = negb (forallb nonnegative_not_nan (elems y)).
Proof.
  unfold has_nan_or_negative.
  rewrite <- existsb_negb_forallb. apply existsb_ext_in.
  intros x _. unfold nonnegative_not_nan.
  destruct (is_nan x) eqn:E; [reflexivity|].
  rewrite (Double.leb_0_ltb x E). cbn. now rewrite negb_involutive.
Qed.

Lemma valid_input_spec (y nu : Argument) :
  valid_input y nu =
  negb (has_nonpositive_or_nonfinite nu) && negb (has_nan_or_negative y)
  && broadcast_compatible y nu.
Proof.
  unfold valid_input.
  now rewrite has_nonpositive_or_nonfinite_spec, has_nan_or_negative_spec,
    !negb_involutive.
Qed.


Section ZeroPath.

Context {SF : SpecialFunctions}.

(** Lines 75-77 on a valid input that holds a zero variate. *)
Lemma zero_path (y nu : Operand) :
  valid_input (value_of y) (value_of nu) = true ->
  has_zero (value_of y) = true ->
  inv_chi_square_cdf y nu =
  inr {| value := 0;
         grad_y := if differentiable y
                   then Some (repeat 0 (length (value_of y))) else None;
         grad_nu := if differentiable nu
                    then Some (repeat 0 (length (value_of nu))) else None |}.
Proof.
  intros Hv Hz.
  rewrite (cdf_valid y nu);
    [|now apply valid_nonempty, has_zero_nonempty|exact Hv].
  rewrite Hz. unfold build, new_operands_and_partials, new_partials.
  cbn [edge1_ edge2_].
  now destruct (differentiable y), (differentiable nu).
Qed.

End ZeroPath.

Section Outcome.

Context {SF : SpecialFunctions}.

(** What a non-empty input gets: the error of the first failing check, or
    the result of lines 67-131. *)
Lemma cdf_outcome (y nu : Operand) :
  size_zero (value_of y) (value_of nu) = false ->
  (valid_input (value_of y) (value_of nu) = true
   /\ exists r, inv_chi_square_cdf y nu = inr r)
  \/ (valid_input (value_of y) (value_of nu) = false
      /\ (has_nonpositive_or_nonfinite (value_of nu) = true
          \/ has_nan_or_negative (value_of y) = true)
      /\ inv_chi_square_cdf y nu = inl domain_error)
  \/ (valid_input (value_of y) (value_of nu) = false
      /\ has_nonpositive_or_nonfinite (value_of nu) = false
      /\ has_nan_or_negative (value_of y) = false
      /\ broadcast_compatible (value_of y) (value_of nu) = false
      /\ inv_chi_square_cdf y nu = inl invalid_argument).
Proof.
  intros Hsz.
  pose proof (valid_input_spec (value_of y) (value_of nu)) as Hv.
  destruct (has_nonpositive_or_nonfinite (value_of nu)) eqn:H1.
  { right. left. split; [exact Hv|]. split; [now left|].
    apply cdf_domain_error; [exact Hsz | now left]. }
  destruct (has_nan_or_negative (value_of y)) eqn:H2.
  { right. left. split; [exact Hv|]. split; [now right|].
    apply cdf_domain_error; [exact Hsz | now right]. }
  destruct (broadcast_compatible (value_of y) (value_of nu)) eqn:H3.
  - left. split; [exact Hv|]. rewrite (cdf_valid _ _ Hsz Hv). eauto.
  - right. right. repeat split; try assumption.
    now apply cdf_invalid_argument.
Qed.

End Outcome.

Section ErrorsAndShape.

Context {SF : SpecialFunctions}.



(** A result on non-empty arguments carries a gradient for each
    differentiable operand, with one slot per element of that operand, and
    none for a constant operand. *)
Theorem gradient_shape (y nu : Operand) (r : result) :
  inv_chi_square_cdf y nu = inr r ->
  length (value_of y) <> 0%nat -> length (value_of nu) <> 0%nat ->
  (if differentiable y
   then exists g, grad_y r = Some g
                  /\ List.length g = length (value_of y)
   else grad_y r = None)
  /\ (if differentiable nu
      then exists g, grad_nu r = Some g
                     /\ List.length g = length (value_of nu)
      else grad_nu r = None).
Proof.
  intros Hr Hy Hnu.
  assert (Hsz : size_zero (value_of y) (value_of nu) = false)
    by (apply size_zero_false; now split).
  assert (Hv : valid_input (value_of y) (value_of nu) = true).
  { destruct (cdf_outcome y nu Hsz)
      as [[Hv _]|[(_ & _ & He)|(_ & _ & _ & _ & He)]];
      [exact Hv | congruence | congruence]. }
  destruct (has_zero (value_of y)) eqn:Hz.
  - rewrite (zero_path y nu Hv Hz) in Hr. injection Hr as <-.
    cbn [grad_y grad_nu].
    split.
    + destruct (differentiable y); [|reflexivity].
      eexists. split; [reflexivity | apply repeat_length].
    + destruct (differentiable nu); [|reflexivity].
      eexists. split; [reflexivity | apply repeat_length].
  - rewrite (cdf_regular y nu Hsz Hv Hz) in Hr. injection Hr as <-.
    cbn [grad_y grad_nu]. unfold expected_gradient.
    split.
    + destruct (differentiable y); [|reflexivity].
      eexists. split; [reflexivity | now rewrite length_map, length_seq].
    + destruct (differentiable nu); [|reflexivity].
      eexists. split; [reflexivity | now rewrite length_map, length_seq].
Qed.

End ErrorsAndShape.

(** A position that is skipped, or lies outside the broadcast range, adds
    to no slot. *)
Lemma positions_of_skipped_slot (a y nu : Argument) (n : nat) :
  length a = max_size y nu -> finite_at y n = false ->
  positions_of_slot a y nu n = [].
Proof.
  intros Hlen Hfin. unfold positions_of_slot, finite_positions.
  rewrite (filter_ext_in _ (fun m => (m =? n)%nat)).
  - rewrite filter_eqb_seq, Hfin. now rewrite andb_false_r.
  - intros m Hm. apply filter_In in Hm as [Hm _]. apply in_seq in Hm.
    rewrite slot_in_range; [reflexivity | lia].
Qed.

Section MoreGradients.

Context {SF : SpecialFunctions}.

(** Asking for the gradients of fewer operands changes neither the error
    nor the value nor the gradients still asked for: the outcome for any
    pair of differentiability flags is the outcome with both operands
    differentiable, cut down to what was asked. *)
Theorem fewer_gradients_same_outcome (dy dnu : bool) (y nu : Argument) :
  inv_chi_square_cdf (mkOperand dy y) (mkOperand dnu nu) =
  map_result (requested dy dnu)
    (inv_chi_square_cdf (mkOperand true y) (mkOperand true nu)).
Proof.
  destruct (size_zero y nu) eqn:Hsz.
  { rewrite !cdf_empty by exact Hsz. cbn. now destruct dy, dnu. }
  destruct (cdf_outcome (mkOperand true y) (mkOperand true nu) Hsz)
    as [[Hv _]|[(_ & Hc & He)|(_ & H1 & H2 & H3 & He)]].
  - destruct (has_zero y) eqn:Hz.
    + rewrite !zero_path by assumption. cbn.
      now destruct dy, dnu.
    + rewrite !cdf_regular by assumption. cbn.
      now destruct dy, dnu.
  - rewrite He. cbn [map_result]. now apply cdf_domain_error.
  - rewrite He. cbn [map_result]. now apply cdf_invalid_argument.
Qed.

(** On a valid non-empty input with [nu] differentiable and no zero
    variate, each nu-gradient slot is the sum, taken from 0.0 in loop order
    over the positions of that slot whose variate is not [+infinity], of
    [0.5 * grad_reg_inc_gamma(0.5*nu(n), 0.5*y_inv, tgamma(0.5*nu(n)),
     digamma(0.5*nu(n))) / Pn], multiplied by the total product [P]; when
    [nu] is as long as the broadcast length, the slot of such a position
    holds that one quantity, added to 0.0 and multiplied by [P]. *)
Theorem nu_gradient_is_scaled_sum (y nu : Operand) :
  valid_input (value_of y) (value_of nu) = true ->
  length (value_of y) <> 0%nat -> length (value_of nu) <> 0%nat ->
  differentiable nu = true ->
  has_zero (value_of y) = false ->
  exists r g,
    inv_chi_square_cdf y nu = inr r
    /\ grad_nu r = Some g
    /\ (forall i, (i < length (value_of nu))%nat ->
          nth i g nan =
          sum_over (nu_term (value_of y) (value_of nu))
            (positions_of_slot (value_of nu) (value_of y) (value_of nu) i)
          * value r)
    /\ (length (value_of nu) = max_size (value_of y) (value_of nu) ->
        forall n, (n < max_size (value_of y) (value_of nu))%nat ->
          finite_at (value_of y) n = true ->
          nth n g nan =
          (0 + nu_term (value_of y) (value_of nu) n) * value r).
Proof.
  intros Hv Hy Hnu Hd Hz. eexists. eexists. split.
  { apply cdf_regular; [apply size_zero_false; now split|exact Hv|exact Hz]. }
  cbn [grad_nu value]. rewrite Hd. split; [reflexivity|].
  unfold expected_gradient. split.
  - intros i Hi. now rewrite nth_map_seq.
  - intros Hlen n Hn Hfin. rewrite nth_map_seq by lia.
    now rewrite (positions_of_own_slot _ _ _ _ Hlen Hn Hfin).
Qed.

(** On a valid non-empty input without a zero variate, the gradient slot
    that a position with variate [+infinity] has to itself, in an operand
    as long as the broadcast length, is never added to: it ends as
    [0.0 * P]. *)
Theorem skipped_slot_is_zero_times_product (y nu : Operand) (n : nat) :
  valid_input (value_of y) (value_of nu) = true ->
  length (value_of y) <> 0%nat -> length (value_of nu) <> 0%nat ->
  has_zero (value_of y) = false ->
  (n < max_size (value_of y) (value_of nu))%nat ->
  (seq_view (value_of y) n =? infinity) = true ->
  exists r,
    inv_chi_square_cdf y nu = inr r
    /\ (differentiable y = true ->
        length (value_of y) = max_size (value_of y) (value_of nu) ->
        exists g, grad_y r = Some g /\ nth n g nan = 0 * value r)
    /\ (differentiable nu = true ->
        length (value_of nu) = max_size (value_of y) (value_of nu) ->
        exists g, grad_nu r = Some g /\ nth n g nan = 0 * value r).
Proof.
  intros Hv Hy Hnu Hz Hn Hinf.
  assert (Hfin : finite_at (value_of y) n = false)
    by (unfold finite_at; now rewrite Hinf).
  eexists. split.
  { apply cdf_regular; [apply size_zero_false; now split|exact Hv|exact Hz]. }
  cbn [grad_y grad_nu value]. unfold expected_gradient. split.
  - intros Hd Hlen. rewrite Hd. eexists. split; [reflexivity|].
    rewrite nth_map_seq by lia.
    now rewrite (positions_of_skipped_slot _ _ _ _ Hlen Hfin).
  - intros Hd Hlen. rewrite Hd. eexists. split; [reflexivity|].
    rewrite nth_map_seq by lia.
    now rewrite (positions_of_skipped_slot _ _ _ _ Hlen Hfin).
Qed.

End MoreGradients.

(** A double equal to [+infinity] is not equal to zero. *)
Lemma infinity_not_zero (x : float) :
  (x =? infinity) = true -> (x =? 0) = false.
Proof.
  rewrite !FloatAxioms.eqb_spec.
  change (Prim2SF 0) with (S754_zero false).
  change (Prim2SF infinity) with (S754_infinity false).
  destruct (Prim2SF x) as [s|s| |s m e]; try discriminate;
    destruct s; try discriminate; reflexivity.
Qed.

Lemma fold_filter_map {A : Type} (h : nat -> float) (g : float -> bool)
    (F : A -> float -> A) (l : list nat) (a : A) :
  fold_left (fun p n => F p (h n)) (filter (fun n => g (h n)) l) a
  = fold_left F (filter g (map h l)) a.
Proof.
  revert a. induction l as [|n l IH]; intros a; [reflexivity|].
  cbn [map filter]. destruct (g (h n)); cbn [fold_left]; apply IH.
Qed.

Section ScalarDegrees.

Context {SF : SpecialFunctions}.

(** Against a scalar [nu], the product runs over the elements of a
    non-empty [y] in order, the [+infinity] ones left out. *)
Lemma cdf_product_scalar_nu (ys : list float) (v : float) :
  ys <> [] ->
  cdf_product (Seq ys) (Scalar v) =
  fold_left (fun p y => p * factor v y)
            (filter (fun y => negb (y =? infinity)) ys) 1.
Proof.
  intros Hne. unfold cdf_product, product_over, finite_positions.
  assert (HN : max_size (Seq ys) (Scalar v) = List.length ys).
  { unfold max_size. change (length (Scalar v)) with 1%nat.
    change (length (Seq ys)) with (List.length ys).
    destruct ys; [contradiction|]. cbn [List.length]. lia. }
  rewrite HN.
  rewrite (filter_ext_in (finite_at (Seq ys))
             (fun n => negb (nth n ys nan =? infinity))).
  2: { intros n Hn. apply in_seq in Hn. unfold finite_at.
       rewrite seq_view_in_range; [reflexivity|].
       change (length (Seq ys)) with (List.length ys). lia. }
  rewrite (fold_left_ext_in _ (fun p n => p * factor v (nth n ys nan))).
  2: { intros p n Hn. apply filter_In in Hn as [Hn _]. apply in_seq in Hn.
       unfold Q_term, factor.
       rewrite (seq_view_in_range (Seq ys));
         [reflexivity | change (length (Seq ys)) with (List.length ys); lia]. }
  rewrite (fold_filter_map (fun n => nth n ys nan)
             (fun y => negb (y =? infinity))
             (fun p y => p * factor v y)).
  now rewrite map_nth_seq.
Qed.

End ScalarDegrees.

Section ValuesInClosedForm.

Context {SF : SpecialFunctions}.

(** On a valid non-empty input whose variates are all [+infinity], the
    call returns exactly 1 and every requested gradient slot is zero. *)
Theorem all_infinite_returns_one (y nu : Operand) :
  valid_input (value_of y) (value_of nu) = true ->
  length (value_of y) <> 0%nat -> length (value_of nu) <> 0%nat ->
  forallb (fun x => x =? infinity) (elems (value_of y)) = true ->
  inv_chi_square_cdf y nu =
  inr {| value := 1;
         grad_y := if differentiable y
                   then Some (repeat 0 (length (value_of y))) else None;
         grad_nu := if differentiable nu
                    then Some (repeat 0 (length (value_of nu))) else None |}.
Proof.
  intros Hv Hy Hnu Hall. rewrite forallb_forall in Hall.
  assert (Hz : has_zero (value_of y) = false).
  { unfold has_zero. destruct (existsb _ _) eqn:E; [|reflexivity].
    apply existsb_exists in E as (x & Hx & Hx0).
    now rewrite (infinity_not_zero x (Hall x Hx)) in Hx0. }
  rewrite (cdf_regular y nu); [|apply size_zero_false; now split|exact Hv|exact Hz].
  assert (Hnone : finite_positions (value_of y) (value_of nu) = []).
  { unfold finite_positions. apply filter_none. intros n Hn.
    apply in_seq in Hn. unfold finite_at, seq_view.
    rewrite Hall; [reflexivity|]. apply nth_In.
    apply (slot_lt _ (max_size (value_of y) (value_of nu)));
      [apply (valid_input_sizes _ _ Hv) | lia]. }
  unfold expected_gradient, positions_of_slot, cdf_product.
  rewrite Hnone. cbn [filter]. unfold sum_over, product_over.
  cbn [fold_left]. change (0 * 1) with 0.
  now rewrite !map_const, !length_seq.
Qed.

(** For positive finite scalars [y] and [nu] the value is
    [gamma_q(0.5*nu, 0.5*(1/y))] itself, and the requested gradients are
    the y and nu quantities of lines 110-120, each added to 0.0 and
    multiplied by that value. *)
Theorem scalar_call (dy dnu : bool) (y v : float) :
  positive_finite y = true -> positive_finite v = true ->
  let y_inv := 1 / y in
  let Pn := gamma_q (0.5 * v) (0.5 * y_inv) in
  inv_chi_square_cdf (mkOperand dy (Scalar y)) (mkOperand dnu (Scalar v)) =
  inr {| value := Pn;
         grad_y :=
           if dy
           then Some [(0 + 0.5 * y_inv * y_inv * exp (-0.5 * y_inv)
                           * pow (0.5 * y_inv) (0.5 * v - 1)
                           / tgamma (0.5 * v) / Pn) * Pn]
           else None;
         grad_nu :=
           if dnu
           then Some [(0 + 0.5 * grad_reg_inc_gamma (0.5 * v) (0.5 * y_inv)
                                   (tgamma (0.5 * v)) (digamma (0.5 * v))
                           / Pn) * Pn]
           else None |}.
Proof.
  intros Hy Hv y_inv Pn.
  destruct (Double.positive_finite_cases y Hy) as (N1 & L1 & Z1 & I1).
  rewrite (cdf_regular (mkOperand dy (Scalar y)) (mkOperand dnu (Scalar v))).
  - cbn [value_of differentiable].
    assert (Hpos : finite_positions (Scalar y) (Scalar v) = [0%nat]).
    { unfold finite_positions, finite_at.
      change (max_size (Scalar y) (Scalar v)) with 1%nat. cbn [seq filter].
      change (seq_view (Scalar y) 0) with y. now rewrite I1. }
    unfold expected_gradient, positions_of_slot, cdf_product.
    rewrite Hpos.
    change (length (Scalar y)) with 1%nat.
    change (length (Scalar v)) with 1%nat.
    cbn [seq map filter]. 
    change (slot (Scalar y) 0) with 0%nat.
    change (slot (Scalar v) 0) with 0%nat.
    cbn [Nat.eqb]. unfold sum_over, product_over. cbn [fold_left].
    change (Q_term (Scalar y) (Scalar v) 0) with Pn.
    rewrite (Double.mul_1_l Pn). reflexivity.
  - reflexivity.
  - unfold valid_input, broadcast_compatible, nonnegative_not_nan.
    cbn [value_of elems forallb]. rewrite Hv, N1, L1. reflexivity.
  - unfold has_zero. cbn [value_of elems existsb]. now rewrite Z1.
Qed.

(** Against a scalar [nu], appending one more variate to a non-empty [y]
    multiplies the value by the factor of that variate, and leaves the
    value as it is when the variate is [+infinity]. *)
Theorem appended_variate_multiplies_value (dy dnu : bool)
    (ys : list float) (y' v : float) :
  ys <> [] ->
  valid_input (Seq (ys ++ [y'])) (Scalar v) = true ->
  has_zero (Seq (ys ++ [y'])) = false ->
  exists r r',
    inv_chi_square_cdf (mkOperand dy (Seq ys)) (mkOperand dnu (Scalar v))
    = inr r
    /\ inv_chi_square_cdf (mkOperand dy (Seq (ys ++ [y'])))
         (mkOperand dnu (Scalar v)) = inr r'
    /\ value r' = if y' =? infinity then value r
                  else value r * gamma_q (0.5 * v) (0.5 * (1 / y')).
Proof.
  intros Hne Hv Hz.
  assert (Hne' : ys ++ [y'] <> []) by (now destruct ys).
  assert (Hv0 : valid_input (Seq ys) (Scalar v) = true).
  { unfold valid_input in *. cbn [elems] in *.
    rewrite forallb_app in Hv.
    apply andb_true_iff in Hv as [Hv _].
    apply andb_true_iff in Hv as [Hnu Hy].
    apply andb_true_iff in Hy as [Hy _].
    rewrite Hnu, Hy. cbn [andb].
    unfold broadcast_compatible, consistent_size, max_size.
    change (length (Scalar v)) with 1%nat.
    change (length (Seq ys)) with (List.length ys).
    destruct ys as [|y0 ys]; [contradiction|]. cbn [List.length].
    replace (Nat.max (S (List.length ys)) 1) with (S (List.length ys)) by lia.
    now rewrite Nat.eqb_refl, orb_true_r. }
  assert (Hz0 : has_zero (Seq ys) = false).
  { unfold has_zero in *. cbn [elems] in *. rewrite existsb_app in Hz.
    now apply orb_false_iff in Hz as [Hz _]. }
  do 2 eexists. split; [|split].
  - apply cdf_regular; [|exact Hv0|exact Hz0].
    apply size_zero_false. cbn [value_of].
    change (length (Seq ys)) with (List.length ys).
    change (length (Scalar v)) with 1%nat.
    destruct ys; [contradiction|]. cbn [List.length]. lia.
  - apply cdf_regular; [|exact Hv|exact Hz].
    apply size_zero_false. cbn [value_of].
    change (length (Seq (ys ++ [y']))) with (List.length (ys ++ [y'])).
    change (length (Scalar v)) with 1%nat.
    rewrite length_app. cbn [List.length]. lia.
  - cbn [value value_of].
    rewrite !cdf_product_scalar_nu by assumption.
    rewrite filter_app, fold_left_app. cbn [filter].
    destruct (y' =? infinity); reflexivity.
Qed.

End ValuesInClosedForm.

(** ** The further properties on concrete inputs *)


(** [cdf([1, 2], 3)] with [y] differentiable and [nu] constant. *)
Lemma gradient_shape_witness :
  (exists g, Some [0.25; 0.0625] = Some g /\ List.length g = 2%nat)
  /\ @None (list float) = None.
Proof.
  apply (@gradient_shape sample_functions
           (mkOperand true (Seq [1; 2])) (mkOperand false (Scalar 3))
           {| value := 0.25; grad_y := Some [0.25; 0.0625];
              grad_nu := None |});
    [reflexivity | discriminate | discriminate].
Defined.

(** [cdf([1, 2], [2, 4])] with [nu] differentiable. *)
Lemma nu_gradient_is_scaled_sum_witness :
  exists r g,
    @inv_chi_square_cdf sample_functions
      (mkOperand false (Seq [1; 2])) (mkOperand true (Seq [2; 4])) = inr r
    /\ grad_nu r = Some g
    /\ nth 1 g nan = (0 + 0.25) * 0.25.
Proof.
  destruct (@nu_gradient_is_scaled_sum sample_functions
              (mkOperand false (Seq [1; 2])) (mkOperand true (Seq [2; 4])))
    as (r & g & Hr & Hg & _ & Hown); try discriminate; try reflexivity.
  exists r, g. split; [exact Hr|]. split; [exact Hg|].
  rewrite (Hown eq_refl 1%nat); [|repeat constructor|reflexivity].
  injection Hr as <-. reflexivity.
Defined.

(** [cdf([1, +infinity], [2, 4])] at position 1. *)
Lemma skipped_slot_is_zero_times_product_witness :
  exists r,
    @inv_chi_square_cdf sample_functions
      (mkOperand true (Seq [1; infinity])) (mkOperand true (Seq [2; 4]))
    = inr r.
Proof.
  destruct (@skipped_slot_is_zero_times_product sample_functions
              (mkOperand true (Seq [1; infinity]))
              (mkOperand true (Seq [2; 4])) 1)
    as (r & Hr & _); try discriminate; try reflexivity.
  - repeat constructor.
  - exists r. exact Hr.
Defined.

(** [cdf([+infinity, +infinity], 3)]. *)
Lemma all_infinite_returns_one_witness :
  @inv_chi_square_cdf sample_functions
    (mkOperand true (Seq [infinity; infinity])) (mkOperand true (Scalar 3))
  = inr {| value := 1; grad_y := Some [0; 0]; grad_nu := Some [0] |}.
Proof.
  apply (@all_infinite_returns_one sample_functions
           (mkOperand true (Seq [infinity; infinity]))
           (mkOperand true (Scalar 3)));
    try discriminate; reflexivity.
Defined.

(** [cdf(2, 3)] with both operands differentiable. *)
Lemma scalar_call_witness :
  @inv_chi_square_cdf sample_functions
    (mkOperand true (Scalar 2)) (mkOperand true (Scalar 3))
  = inr {| value := 0.5; grad_y := Some [0.125]; grad_nu := Some [0.125] |}.
Proof.
  apply (@scalar_call sample_functions true true 2 3); reflexivity.
Defined.

(** [cdf([1, 2], 3)] and [cdf([1, 2, 4], 3)]. *)
Lemma appended_variate_multiplies_value_witness :
  exists r r',
    @inv_chi_square_cdf sample_functions
      (mkOperand false (Seq [1; 2])) (mkOperand false (Scalar 3)) = inr r
    /\ @inv_chi_square_cdf sample_functions
         (mkOperand false (Seq [1; 2; 4])) (mkOperand false (Scalar 3))
       = inr r'
    /\ value r' = value r * 0.5.
Proof.
  apply (@appended_variate_multiplies_value sample_functions
           false false [1; 2] 4 3);
    [discriminate | reflexivity | reflexivity].
Defined.
